(** * Text pre-processing of the semantic chunking tutorial

    Shallow embedding of [preprocess_text] and of the chunker configuration
    of [tutorials/semantic_chunking.ipynb].

    A Python [str] is a sequence of Unicode code points: it is modelled as a
    list of code points ([N]).  The library calls that the function makes
    ([str.replace], [re.findall], [str.split], [str.strip], [str.join]) are
    modelled by what CPython does on such sequences. *)

From Equations Require Import Equations.
From Stdlib Require Import String Ascii List NArith ZArith Bool Lia.
From Stdlib Require Import Uint63 Floats.
Import ListNotations.

(* Python's 0.3 and Rocq's are the same double, the one nearest to 3/10. *)
Set Warnings "-inexact-float".

(** * Definitions *)

(** ** Strings *)

Definition char := N.

Definition str := list char.

(** Code points of an ASCII literal, to write examples. *)
Fixpoint of_string (s : string) : str :=
  match s with
  | EmptyString => []
  | String a r => N_of_ascii a :: of_string r
  end.

Definition LF : char := 10%N.

Definition CR : char := 13%N.

Definition SP : char := 32%N.

(** [str.isspace] on one code point, the test behind [str.split()] and
    [str.strip()] (Unicode White_Space, plus the separators 0x1C-0x1F). *)
Definition is_space (c : char) : bool :=
  ((9 <=? c) && (c <=? 13) || (28 <=? c) && (c <=? 32)
   || (c =? 133) || (c =? 160) || (c =? 5760)
   || (8192 <=? c) && (c <=? 8202)
   || (c =? 8232) || (c =? 8233) || (c =? 8239) || (c =? 8287)
   || (c =? 12288))%N.

(** The class [[.!?]] of the pattern. *)
Definition is_terminal (c : char) : bool :=
  ((c =? 46) || (c =? 33) || (c =? 63))%N.

(** ** Library calls *)

(** [s.replace(old, new)] for one-character [old] and [new]. *)
Definition replace (old new : char) (s : str) : str :=
  map (fun c => if (c =? old)%N then new else c) s.

(** Match of [[^.!?]*[.!?]] anchored at the head of [s]: the star takes
    every character it can; giving one back never helps, since a character
    the star accepted is not in [[.!?]].  The result is the matched text and
    what follows it. *)
Fixpoint match_here (s : str) : option (str * str) :=
  match s with
  | [] => None
  | c :: r =>
      if is_terminal c then Some ([c], r)
      else match match_here r with
           | Some (m, rest) => Some (c :: m, rest)
           | None => None
           end
  end.

Lemma match_here_shorter s m rest :
  match_here s = Some (m, rest) -> length rest < length s.
Proof.
  revert m rest. induction s as [|c r IH]; intros m rest; simpl.
  - discriminate.
  - destruct (is_terminal c).
    + intros [= <- <-]. lia.
    + destruct (match_here r) as [[m' rest']|] eqn:E; try discriminate.
      intros [= <- <-]. specialize (IH _ _ eq_refl). lia.
Qed.

Definition inspect {A} (a : A) : {b : A | a = b} := exist _ a eq_refl.

(** [re.findall(r'[^.!?]*[.!?]', s)]: the scan tries the pattern at the
    current position; on a match it records it and resumes after it, else
    it moves one character on. *)
Equations findall (s : str) : list str by wf (length s) lt :=
  findall [] := [];
  findall (c :: r) with inspect (match_here (c :: r)) := {
    | exist _ (Some (m, rest)) E := m :: findall rest;
    | exist _ None _ := findall r }.
Next Obligation.
  apply (match_here_shorter (c :: r) _ _ E).
Qed.

(** [s.split()]: the words of [s], the maximal runs of characters that are
    not white space.  [cur] is the word being read, in reverse. *)
Fixpoint split_from (cur : str) (s : str) : list str :=
  match s with
  | [] => match cur with [] => [] | _ => [rev cur] end
  | c :: r =>
      if is_space c
      then match cur with
           | [] => split_from [] r
           | _ => rev cur :: split_from [] r
           end
      else split_from (c :: cur) r
  end.

Definition split (s : str) : list str := split_from [] s.

Fixpoint lstrip (s : str) : str :=
  match s with
  | [] => []
  | c :: r => if is_space c then lstrip r else s
  end.

Definition rstrip (s : str) : str := rev (lstrip (rev s)).

(** [s.strip()] *)
Definition strip (s : str) : str := rstrip (lstrip s).

(** [sep.join(l)] *)
Fixpoint join (sep : str) (l : list str) : str :=
  match l with
  | [] => []
  | [x] => x
  | x :: r => x ++ sep ++ join sep r
  end.

(** ** The function of the notebook *)

(** The list comprehension
    [[sentence.strip() for sentence in sentences
      if len(sentence.split()) >= min_length]]. *)
Definition long_enough (min_length : Z) (sentence : str) : bool :=
  (Z.of_nat (length (split sentence)) >=? min_length)%Z.

Definition sentences_of (text : str) : list str :=
  findall (replace CR SP (replace LF SP text)).

Definition filtered_sentences (text : str) (min_length : Z) : list str :=
  map strip (filter (long_enough min_length) (sentences_of text)).

Definition preprocess_text (text : str) (min_length : Z) : str :=
  join [SP] (filtered_sentences text min_length).

(** The default of the parameter [min_length]. *)
Definition default_min_length : Z := 5%Z.

Definition preprocess_text_default (text : str) : str :=
  preprocess_text text default_min_length.

(** ** The function as Python runs it *)

(** The modules that the notebook imports by name. *)
Inductive module_name := m_random | m_re | m_requests.

(** Values that names are bound to: strings, lists of strings, integers,
    [None], the modules, the builtin [len], and the function object that
    the [def] statement creates. *)
Inductive value :=
| VStr (s : str)
| VList (l : list str)
| VInt (n : Z)
| VNone
| VModule (m : module_name)
| VBuiltin_len
| VFunction_preprocess_text.

Inductive exn :=
| NameError (name : string)
| UnboundLocalError (name : string)
| AttributeError
| TypeError.

(** What running code gives: a value, or an exception raised. *)
Inductive outcome (A : Type) :=
| Return (a : A)
| Raise (e : exn).

Arguments Return {A} a.
Arguments Raise {A} e.

(** A name space: the names bound in it. *)
Definition namespace := list (string * value).

Fixpoint lookup (name : string) (ns : namespace) : option value :=
  match ns with
  | [] => None
  | (k, v) :: r => if String.eqb name k then Some v else lookup name r
  end.

Fixpoint assign (name : string) (v : value) (ns : namespace) : namespace :=
  match ns with
  | [] => [(name, v)]
  | (k, w) :: r =>
      if String.eqb name k then (k, v) :: r else (k, w) :: assign name v r
  end.

(** The state that outlives a call: the name space of the module and the
    one of the builtins. *)
Record state := { globals : namespace; builtins : namespace }.

(** A global name is looked up in the module, then in the builtins. *)
Definition resolve (name : string) (st : state) : option value :=
  match lookup name (globals st) with
  | Some v => Some v
  | None => lookup name (builtins st)
  end.

(** A call runs on the state and on locals of its own. *)
Record frame := { f_state : state; f_locals : namespace }.

(** Code that runs in a frame: it returns or raises, and leaves a frame. *)
Definition exec (A : Type) := frame -> outcome A * frame.

Definition ret {A} (a : A) : exec A := fun f => (Return a, f).

Definition raise {A} (e : exn) : exec A := fun f => (Raise e, f).

Definition bind {A B} (c : exec A) (k : A -> exec B) : exec B :=
  fun f => match c f with
           | (Return a, f') => k a f'
           | (Raise e, f') => (Raise e, f')
           end.

Notation "x <- c ;; k" := (bind c (fun x => k))
  (at level 61, c at next level, right associativity).

Notation "c ;;; k" := (bind c (fun _ => k))
  (at level 61, right associativity).

(** A local variable of the function ([LOAD_FAST], [STORE_FAST]). *)
Definition load_fast (name : string) : exec value :=
  fun f => match lookup name (f_locals f) with
           | Some v => (Return v, f)
           | None => (Raise (UnboundLocalError name), f)
           end.

Definition store_fast (name : string) (v : value) : exec unit :=
  fun f => (Return tt, {| f_state := f_state f;
                          f_locals := assign name v (f_locals f) |}).

(** A name that the code does not assign ([LOAD_GLOBAL]; at the top level
    of the module, [LOAD_NAME]). *)
Definition load_global (name : string) : exec value :=
  fun f => match resolve name (f_state f) with
           | Some v => (Return v, f)
           | None => (Raise (NameError name), f)
           end.

(** An assignment at the top level of the module ([STORE_NAME]). *)
Definition store_global (name : string) (v : value) : exec unit :=
  fun f => (Return tt,
            {| f_state := {| globals := assign name v (globals (f_state f));
                             builtins := builtins (f_state f) |};
               f_locals := f_locals f |}).

(** [v.replace(old, new)]: only a string has the method. *)
Definition method_replace (v : value) (old new : char) : exec value :=
  match v with
  | VStr s => ret (VStr (replace old new s))
  | _ => raise AttributeError
  end.

(** [v.findall]: of the values here only the module [re] has the
    attribute. *)
Definition attr_findall (v : value) : exec unit :=
  match v with
  | VModule m_re => ret tt
  | _ => raise AttributeError
  end.

(** [re.findall(r'[^.!?]*[.!?]', v)] *)
Definition re_findall (v : value) : exec value :=
  match v with
  | VStr s => ret (VList (findall s))
  | _ => raise TypeError
  end.

(** [f(words)], where [f] is what the name [len] is bound to and [words]
    a list: the builtin counts; the function of the notebook, given a
    list, raises at its first statement, a list having no [replace]; the
    other values cannot be called. *)
Definition call_on_list (f : value) (words : list str) : exec Z :=
  match f with
  | VBuiltin_len => ret (Z.of_nat (length words))
  | VFunction_preprocess_text => raise AttributeError
  | _ => raise TypeError
  end.

(** [n >= v] for an integer [n]. *)
Definition int_ge (n : Z) (v : value) : exec bool :=
  match v with
  | VInt m => ret (n >=? m)%Z
  | _ => raise TypeError
  end.

(** The list comprehension: for each sentence in turn the name [len] is
    looked up and called on [sentence.split()], the count is compared with
    [min_length], and [sentence.strip()] is added when the test holds. *)
Fixpoint comprehension (sentences : list str) : exec (list str) :=
  match sentences with
  | [] => ret []
  | sentence :: rest =>
      f <- load_global "len" ;;
      n <- call_on_list f (split sentence) ;;
      min_length <- load_fast "min_length" ;;
      keep <- int_ge n min_length ;;
      others <- comprehension rest ;;
      ret (if keep : bool then strip sentence :: others else others)
  end.

Definition iterate (v : value) : exec (list str) :=
  match v with
  | VList l => ret l
  | _ => raise TypeError
  end.

(** The body of [preprocess_text], statement by statement. *)
Definition preprocess_text_body : exec value :=
  text <- load_fast "text" ;;
  text' <- method_replace text LF SP ;;
  store_fast "text" text' ;;;
  text <- load_fast "text" ;;
  text' <- method_replace text CR SP ;;
  store_fast "text" text' ;;;
  re <- load_global "re" ;;
  attr_findall re ;;;
  text <- load_fast "text" ;;
  sentences <- re_findall text ;;
  store_fast "sentences" sentences ;;;
  sentences <- load_fast "sentences" ;;
  sentences <- iterate sentences ;;
  filtered <- comprehension sentences ;;
  store_fast "filtered_sentences" (VList filtered) ;;;
  filtered <- load_fast "filtered_sentences" ;;
  filtered <- iterate filtered ;;
  ret (VStr (join [SP] filtered)).

(** [preprocess_text(text)] or [preprocess_text(text, min_length)]: the
    body runs on locals that hold the arguments, which are dropped when it
    returns or raises; the outcome, and the state after the call. *)
Definition call_preprocess_text
    (st : state) (text : value) (min_length : option Z)
  : outcome value * state :=
  let locals :=
    [("text"%string, text);
     ("min_length"%string,
      VInt (match min_length with
            | Some m => m
            | None => default_min_length
            end))] in
  match preprocess_text_body {| f_state := st; f_locals := locals |} with
  | (r, f) => (r, f_state f)
  end.

(** ** The statement that calls the function *)

(** [f(arg)] with one argument, for the values here. *)
Definition call (f arg : value) : exec value :=
  match f with
  | VFunction_preprocess_text =>
      fun fr =>
        match call_preprocess_text (f_state fr) arg None with
        | (r, st) => (r, {| f_state := st; f_locals := f_locals fr |})
        end
  | VBuiltin_len =>
      match arg with
      | VStr s => ret (VInt (Z.of_nat (length s)))
      | VList l => ret (VInt (Z.of_nat (length l)))
      | _ => raise TypeError
      end
  | _ => raise TypeError
  end.

(** [book_text = preprocess_text(book_text)], at the top level of the
    notebook: both names are looked up in the module, the value of the
    first is called on the value of the second, and the result is bound in
    the module. *)
Definition rebind_book_text_stmt : exec unit :=
  f <- load_global "preprocess_text" ;;
  arg <- load_global "book_text" ;;
  v <- call f arg ;;
  store_global "book_text" v.

Definition rebind_book_text (st : state) : outcome unit * state :=
  match rebind_book_text_stmt {| f_state := st; f_locals := [] |} with
  | (r, f) => (r, f_state f)
  end.

(** ** The chunker *)

(** The keyword arguments of the call [SDPMChunker(...)]. *)
Record SDPMChunker := {
  embedding_model : string;
  similarity_threshold : float;
  skip_window : Z;
  chunk_size : Z
}.

Definition chunker : SDPMChunker := {|
  embedding_model := "minishlab/potion-base-8M";
  similarity_threshold := 0.3%float;
  skip_window := 5;
  chunk_size := 256
|}.

(** The documented defaults of the configuration options, in the words of
    the specification. *)
Definition documented_similarity_threshold : float := 0.3%float.

Definition documented_skip_window : Z := 5.

Definition documented_chunk_size : Z := 256.

(** ** Predicates of the statements *)

(** No character of [s] is in [[.!?]]. *)
Definition no_terminal (s : str) : bool :=
  forallb (fun c => negb (is_terminal c)) s.

(** A run of characters outside [[.!?]] followed by one character of
    [[.!?]]. *)
Definition is_sentence (s : str) : Prop :=
  exists body c,
    s = body ++ [c] /\ no_terminal body = true /\ is_terminal c = true.

Definition all_space (s : str) : bool := forallb is_space s.

(** [s] does not begin with white space. *)
Definition no_leading_space (s : str) : bool :=
  match s with
  | [] => true
  | c :: _ => negb (is_space c)
  end.

(** [s] does not end with white space. *)
Definition no_trailing_space (s : str) : bool := no_leading_space (rev s).

Definition no_newline (s : str) : bool :=
  forallb (fun c => negb (c =? LF)%N && negb (c =? CR)%N) s.

(** What the comprehension keeps: a sentence without white space around
    it that has enough words. *)
Definition kept (m : Z) (y : str) : Prop :=
  is_sentence y /\ no_leading_space y = true /\ long_enough m y = true.

(** [l1] is [l2] with some elements left out, the others in place. *)
Inductive subseq {A : Type} : list A -> list A -> Prop :=
| subseq_nil : subseq [] []
| subseq_skip x l1 l2 : subseq l1 l2 -> subseq l1 (x :: l2)
| subseq_keep x l1 l2 : subseq l1 l2 -> subseq (x :: l1) (x :: l2).

(** ** Measures of a text *)

(** The characters of [s] that are in [[.!?]]. *)
Definition terminals (s : str) : str := filter is_terminal s.

(** The characters of [s] that are not white space. *)
Definition visible (s : str) : str := filter (fun c => negb (is_space c)) s.

(** [s] is empty or ends with a character of [[.!?]]. *)
Definition ends_sentence (s : str) : bool :=
  match rev s with
  | [] => true
  | c :: _ => is_terminal c
  end.

(** * Lemmas *)

(** The function on a few texts. *)

Example preprocess_text_ex1 :
  preprocess_text_default
    (of_string "One two three four five. Short one. tail")
  = of_string "One two three four five.".
Proof. reflexivity. Qed.

Example preprocess_text_ex2 :
  sentences_of (of_string "Hi!! Ok." ++ [CR; LF] ++ of_string "Bye")
  = [of_string "Hi!"; of_string "!"; of_string " Ok."]
  /\ preprocess_text
       (of_string "Hi!! Ok." ++ [CR; LF] ++ of_string "Bye") 1
     = of_string "Hi! ! Ok.".
Proof. split; reflexivity. Qed.

Example preprocess_text_ex3 :
  preprocess_text (of_string "a b." ++ [LF] ++ of_string "c d e. f g h.") 3
  = of_string "c d e. f g h.".
Proof. reflexivity. Qed.

(** ** The scan *)

Lemma findall_cons c r :
  findall (c :: r) =
  match match_here (c :: r) with
  | Some (m, rest) => m :: findall rest
  | None => findall r
  end.
Proof.
  simp findall.
  generalize (inspect (match_here (c :: r))).
  intros [[[m rest]|] E]; simpl; simpl in E; rewrite E; reflexivity.
Qed.

Lemma match_here_None s :
  match_here s = None <-> no_terminal s = true.
Proof.
  induction s as [|c r IH]; simpl.
  - split; reflexivity.
  - destruct (is_terminal c); simpl.
    + split; discriminate.
    + destruct (match_here r) as [[m rest]|].
      * split; [discriminate |].
        intros H. apply IH in H. discriminate.
      * split; intros _; [ apply IH |]; reflexivity.
Qed.

Lemma match_here_Some s m rest :
  match_here s = Some (m, rest) -> is_sentence m /\ s = m ++ rest.
Proof.
  revert m rest. induction s as [|c r IH]; intros m rest; simpl.
  - discriminate.
  - destruct (is_terminal c) eqn:Tc.
    + intros [= <- <-]. split; [| reflexivity].
      exists [], c. auto.
    + destruct (match_here r) as [[m' rest']|]; [| discriminate].
      intros [= <- <-].
      destruct (IH _ _ eq_refl) as [(body & d & -> & Hb & Hd) ->].
      split; [| reflexivity].
      exists (c :: body), d. simpl. rewrite Tc, Hb. auto.
Qed.

Lemma match_here_sentence body c rest :
  no_terminal body = true -> is_terminal c = true ->
  match_here (body ++ c :: rest) = Some (body ++ [c], rest).
Proof.
  intros Hb Hc. induction body as [|b body IH]; simpl in *.
  - rewrite Hc. reflexivity.
  - apply andb_prop in Hb as [Hb1 Hb2].
    apply negb_true_iff in Hb1. rewrite Hb1, (IH Hb2). reflexivity.
Qed.

Lemma findall_no_terminal s : no_terminal s = true -> findall s = [].
Proof.
  induction s as [|c r IH]; intros H.
  - reflexivity.
  - rewrite findall_cons.
    apply match_here_None in H as E. rewrite E.
    simpl in H. apply andb_prop in H as [_ H]. auto.
Qed.

Lemma findall_sentence_app m rest :
  is_sentence m -> findall (m ++ rest) = m :: findall rest.
Proof.
  intros (body & c & -> & Hb & Hc).
  rewrite <- app_assoc. simpl.
  pose proof (match_here_sentence body c rest Hb Hc) as E.
  destruct (body ++ c :: rest) as [|x l] eqn:El.
  - discriminate.
  - rewrite findall_cons, E. reflexivity.
Qed.

(** The scan cuts the text after each character of [[.!?]] and leaves
    what follows the last one. *)
Lemma findall_partition s :
  Forall is_sentence (findall s) /\
  exists tail, no_terminal tail = true /\ s = concat (findall s) ++ tail.
Proof.
  remember (length s) as n eqn:Hn. revert s Hn.
  induction n as [n IH] using lt_wf_ind. intros s Hn.
  destruct (match_here s) as [[m rest]|] eqn:E.
  - pose proof (match_here_shorter _ _ _ E) as Hlt.
    destruct (match_here_Some _ _ _ E) as [Hm ->].
    rewrite (findall_sentence_app _ _ Hm).
    destruct (IH (length rest) ltac:(lia) rest eq_refl)
      as [Hall (tail & Ht & Hrest)].
    split; [constructor; assumption |].
    exists tail. split; [assumption |].
    simpl. rewrite <- app_assoc, <- Hrest. reflexivity.
  - apply match_here_None in E.
    rewrite (findall_no_terminal _ E).
    split; [constructor |]. exists s. auto.
Qed.

Lemma findall_concat l tail :
  Forall is_sentence l -> no_terminal tail = true ->
  findall (concat l ++ tail) = l.
Proof.
  intros Hl Ht. induction Hl as [|m l Hm _ IH]; simpl.
  - apply findall_no_terminal, Ht.
  - rewrite <- app_assoc, (findall_sentence_app _ _ Hm), IH. reflexivity.
Qed.

Lemma findall_app_tail s tail :
  no_terminal tail = true -> findall (s ++ tail) = findall s.
Proof.
  intros Ht. destruct (findall_partition s) as [Hall (tl & Htl & Hs)].
  rewrite Hs at 1. rewrite <- app_assoc. apply findall_concat.
  - exact Hall.
  - unfold no_terminal in *. rewrite forallb_app, Htl, Ht. reflexivity.
Qed.

Lemma findall_In s x c : In x (findall s) -> In c x -> In c s.
Proof.
  destruct (findall_partition s) as [_ (tail & _ & Hs)].
  intros Hx Hc. rewrite Hs. apply in_or_app. left.
  apply in_concat. exists x. auto.
Qed.

(** ** White space, [strip] and [split] *)

Lemma terminal_not_space c : is_terminal c = true -> is_space c = false.
Proof.
  unfold is_terminal. intros H.
  apply orb_prop in H as [H|H]; [apply orb_prop in H as [H|H] |];
    apply N.eqb_eq in H; subst c; reflexivity.
Qed.

Lemma lstrip_split s :
  exists lead, all_space lead = true /\ s = lead ++ lstrip s.
Proof.
  induction s as [|c r (lead & Hl & Hr)]; simpl.
  - exists []. auto.
  - destruct (is_space c) eqn:Ec.
    + exists (c :: lead). simpl. rewrite Ec, Hl. split; [reflexivity |].
      f_equal. exact Hr.
    + exists []. auto.
Qed.

Lemma lstrip_no_leading s : no_leading_space (lstrip s) = true.
Proof.
  induction s as [|c r IH]; simpl; [reflexivity |].
  destruct (is_space c) eqn:Ec; [exact IH |].
  simpl. rewrite Ec. reflexivity.
Qed.

Lemma lstrip_fixed s : no_leading_space s = true -> lstrip s = s.
Proof.
  destruct s as [|c r]; simpl; [reflexivity |].
  intros H. apply negb_true_iff in H. rewrite H. reflexivity.
Qed.

Lemma rstrip_split s :
  exists trail, all_space trail = true /\ s = rstrip s ++ trail.
Proof.
  unfold rstrip. destruct (lstrip_split (rev s)) as (lead & Hl & Hs).
  exists (rev lead). split.
  - unfold all_space in *. rewrite forallb_forall in *.
    intros c Hc. apply Hl, in_rev, Hc.
  - rewrite <- rev_app_distr, <- Hs, rev_involutive. reflexivity.
Qed.

Lemma rstrip_no_trailing s : no_trailing_space (rstrip s) = true.
Proof.
  unfold no_trailing_space, rstrip. rewrite rev_involutive.
  apply lstrip_no_leading.
Qed.

Lemma rstrip_fixed s : no_trailing_space s = true -> rstrip s = s.
Proof.
  unfold no_trailing_space, rstrip. intros H.
  rewrite (lstrip_fixed _ H). apply rev_involutive.
Qed.

Lemma rstrip_keeps_head s :
  no_leading_space s = true -> no_leading_space (rstrip s) = true.
Proof.
  destruct (rstrip_split s) as (trail & Ht & Hs).
  destruct (rstrip s) as [|c r]; [reflexivity |].
  intros H. rewrite Hs in H. exact H.
Qed.

(** [strip] removes a prefix and a suffix of white space, and nothing
    else. *)
Lemma strip_split s :
  exists lead trail,
    all_space lead = true /\ all_space trail = true /\
    s = lead ++ strip s ++ trail.
Proof.
  unfold strip.
  destruct (lstrip_split s) as (lead & Hl & Hs).
  destruct (rstrip_split (lstrip s)) as (trail & Ht & Hr).
  exists lead, trail. rewrite <- Hr. auto.
Qed.

Lemma strip_no_leading s : no_leading_space (strip s) = true.
Proof. apply rstrip_keeps_head, lstrip_no_leading. Qed.

Lemma strip_no_trailing s : no_trailing_space (strip s) = true.
Proof. apply rstrip_no_trailing. Qed.

Lemma strip_In c s : In c (strip s) -> In c s.
Proof.
  destruct (strip_split s) as (lead & trail & _ & _ & Hs).
  intros H. rewrite Hs. apply in_or_app. right. apply in_or_app. auto.
Qed.

Lemma split_all_space lead s :
  all_space lead = true -> split (lead ++ s) = split s.
Proof.
  unfold split. induction lead as [|c lead IH]; simpl; [reflexivity |].
  intros H. apply andb_prop in H as [Hc Hl]. rewrite Hc. auto.
Qed.

Lemma split_from_trailing cur s trail :
  all_space trail = true ->
  split_from cur (s ++ trail) = split_from cur s.
Proof.
  intros Ht. revert cur. induction s as [|c r IH]; intros cur; simpl.
  - revert cur. induction trail as [|t trail IHt]; intros cur; simpl.
    + reflexivity.
    + simpl in Ht. apply andb_prop in Ht as [Hc Hl]. rewrite Hc.
      destruct cur.
      * rewrite (IHt Hl). reflexivity.
      * rewrite (IHt Hl). reflexivity.
  - destruct (is_space c).
    + destruct cur; rewrite IH; reflexivity.
    + apply IH.
Qed.

(** [strip] keeps the words. *)
Lemma split_strip s : split (strip s) = split s.
Proof.
  destruct (strip_split s) as (lead & trail & Hl & Ht & Hs).
  rewrite Hs at 2. rewrite (split_all_space _ _ Hl).
  unfold split. rewrite (split_from_trailing _ _ _ Ht). reflexivity.
Qed.

Lemma long_enough_strip m s : long_enough m (strip s) = long_enough m s.
Proof. unfold long_enough. rewrite split_strip. reflexivity. Qed.

Lemma long_enough_space m s : long_enough m (SP :: s) = long_enough m s.
Proof. reflexivity. Qed.

(** ** Sentences and white space *)

Lemma sentence_no_trailing s : is_sentence s -> no_trailing_space s = true.
Proof.
  intros (body & c & -> & _ & Hc). unfold no_trailing_space.
  rewrite rev_app_distr. simpl.
  rewrite (terminal_not_space _ Hc). reflexivity.
Qed.

Lemma lstrip_sentence s : is_sentence s -> is_sentence (lstrip s).
Proof.
  intros (body & c & -> & Hb & Hc).
  induction body as [|b body IH]; simpl.
  - rewrite (terminal_not_space _ Hc). exists [], c. auto.
  - simpl in Hb. apply andb_prop in Hb as [Hb1 Hb2].
    destruct (is_space b); [exact (IH Hb2) |].
    exists (b :: body), c. simpl. rewrite Hb1, Hb2. auto.
Qed.

Lemma strip_sentence s : is_sentence s -> is_sentence (strip s).
Proof.
  intros H. apply lstrip_sentence in H. unfold strip.
  rewrite (rstrip_fixed _ (sentence_no_trailing _ H)). exact H.
Qed.

Lemma strip_sentence_lstrip s : is_sentence s -> strip s = lstrip s.
Proof.
  intros H. apply lstrip_sentence in H. unfold strip.
  apply rstrip_fixed, sentence_no_trailing, H.
Qed.

Lemma space_sentence s : is_sentence s -> is_sentence (SP :: s).
Proof.
  intros (body & c & -> & Hb & Hc). exists (SP :: body), c.
  simpl. rewrite Hb. auto.
Qed.

Lemma strip_space_sentence s :
  is_sentence s -> no_leading_space s = true -> strip (SP :: s) = s.
Proof.
  intros Hs Hl. rewrite (strip_sentence_lstrip _ (space_sentence _ Hs)).
  simpl. apply lstrip_fixed, Hl.
Qed.

(** ** [join] *)

Section Join.

Variable sep : str.

Lemma join_cons x r :
  join sep (x :: r) = x ++ concat (map (app sep) r).
Proof.
  revert x. induction r as [|y r IH]; intros x.
  - simpl. rewrite app_nil_r. reflexivity.
  - change (join sep (x :: y :: r)) with (x ++ sep ++ join sep (y :: r)).
    rewrite IH. simpl. rewrite <- app_assoc. reflexivity.
Qed.

Lemma join_In l c :
  In c (join sep l) -> In c sep \/ exists x, In x l /\ In c x.
Proof.
  destruct l as [|x r]; [intros [] |].
  rewrite join_cons. intros H. apply in_app_or in H as [H|H].
  - right. exists x. simpl. auto.
  - apply in_concat in H as (y & Hy & Hc).
    apply in_map_iff in Hy as (z & <- & Hz).
    apply in_app_or in Hc as [Hc|Hc]; [left; exact Hc |].
    right. exists z. simpl. auto.
Qed.

Lemma join_occurs l y :
  In y l -> exists pre post, join sep l = pre ++ y ++ post.
Proof.
  destruct l as [|x r]; [intros [] |].
  rewrite join_cons. intros [->|Hy].
  - exists [], (concat (map (app sep) r)). reflexivity.
  - apply in_split in Hy as (r1 & r2 & ->).
    exists (x ++ concat (map (app sep) r1) ++ sep),
           (concat (map (app sep) r2)).
    rewrite map_app, concat_app. simpl.
    rewrite <- !app_assoc. reflexivity.
Qed.

End Join.

(** ** Line breaks *)

Lemma replace_app old new s t :
  replace old new (s ++ t) = replace old new s ++ replace old new t.
Proof. apply map_app. Qed.

Lemma replace_no_newline text :
  no_newline (replace CR SP (replace LF SP text)) = true.
Proof.
  unfold no_newline, replace. rewrite map_map. apply forallb_forall.
  intros c Hc. apply in_map_iff in Hc as (d & <- & _).
  destruct (N.eqb_spec d LF) as [->|Hd]; [reflexivity |].
  destruct (N.eqb_spec d CR) as [->|Hd']; [reflexivity |].
  apply andb_true_intro. split; apply negb_true_iff, N.eqb_neq; assumption.
Qed.

Lemma replace_fixed s :
  no_newline s = true -> replace CR SP (replace LF SP s) = s.
Proof.
  unfold no_newline, replace. rewrite map_map. intros H.
  rewrite <- (map_id s) at 2. apply map_ext_in. intros c Hc.
  rewrite forallb_forall in H. specialize (H c Hc).
  apply andb_prop in H as [H1 H2].
  apply negb_true_iff in H1, H2. rewrite H1, H2. reflexivity.
Qed.

Lemma replace_no_terminal old s :
  no_terminal s = true -> no_terminal (replace old SP s) = true.
Proof.
  unfold no_terminal, replace. rewrite !forallb_forall.
  intros H c Hc. apply in_map_iff in Hc as (d & <- & Hd).
  destruct (d =? old)%N; [reflexivity | auto].
Qed.

(** ** What the function extracts and keeps *)

Lemma sentences_of_sentence text x :
  In x (sentences_of text) -> is_sentence x.
Proof.
  unfold sentences_of. intros H.
  destruct (findall_partition (replace CR SP (replace LF SP text)))
    as [Hall _].
  rewrite Forall_forall in Hall. auto.
Qed.

Lemma sentences_of_single s :
  is_sentence s -> no_newline s = true -> sentences_of s = [s].
Proof.
  intros Hs Hn. unfold sentences_of. rewrite (replace_fixed _ Hn).
  rewrite <- (app_nil_r s) at 1.
  rewrite (findall_sentence_app _ _ Hs). reflexivity.
Qed.

Lemma filtered_sentences_In text m y :
  In y (filtered_sentences text m) <->
  exists x, In x (sentences_of text) /\ long_enough m x = true
            /\ y = strip x.
Proof.
  unfold filtered_sentences. rewrite in_map_iff. split.
  - intros (x & <- & Hx). apply filter_In in Hx as [Hx Hm]. eauto.
  - intros (x & Hx & Hm & ->). exists x. rewrite filter_In. auto.
Qed.

Lemma filtered_sentences_kept text m :
  Forall (kept m) (filtered_sentences text m).
Proof.
  apply Forall_forall. intros y Hy.
  apply filtered_sentences_In in Hy as (x & Hx & Hm & ->).
  apply sentences_of_sentence in Hx.
  repeat split.
  - apply strip_sentence, Hx.
  - apply strip_no_leading.
  - rewrite long_enough_strip. exact Hm.
Qed.

Lemma preprocess_text_no_newline text m :
  no_newline (preprocess_text text m) = true.
Proof.
  apply forallb_forall. intros c Hc.
  apply join_In in Hc as [Hc|(y & Hy & Hc)].
  - destruct Hc as [<-|[]]. reflexivity.
  - apply filtered_sentences_In in Hy as (x & Hx & _ & ->).
    apply strip_In in Hc.
    pose proof (findall_In _ _ _ Hx Hc) as Hin.
    pose proof (replace_no_newline text) as Hn.
    unfold no_newline in Hn. rewrite forallb_forall in Hn. auto.
Qed.

Lemma refilter_spaced m r :
  Forall (kept m) r ->
  map strip (filter (long_enough m) (map (cons SP) r)) = r.
Proof.
  induction 1 as [|y r (Hs & Hl & Hm) _ IH]; simpl; [reflexivity |].
  rewrite long_enough_space, Hm. simpl.
  rewrite (strip_space_sentence _ Hs Hl), IH. reflexivity.
Qed.

Lemma findall_join l :
  Forall is_sentence l ->
  findall (join [SP] l) =
  match l with
  | [] => []
  | x :: r => x :: map (cons SP) r
  end.
Proof.
  destruct l as [|x r]; intros H; [reflexivity |].
  rewrite join_cons.
  change (map (app [SP]) r) with (map (cons SP) r).
  rewrite <- (app_nil_r (x ++ _)).
  change (x ++ concat (map (cons SP) r))
    with (concat (x :: map (cons SP) r)).
  apply findall_concat; [| reflexivity].
  inversion H as [|? ? Hx Hr]; subst. constructor; [exact Hx |].
  apply Forall_forall. intros z Hz.
  apply in_map_iff in Hz as (y & <- & Hy).
  rewrite Forall_forall in Hr. apply space_sentence, Hr, Hy.
Qed.

Lemma filtered_sentences_join l m :
  Forall (kept m) l -> no_newline (join [SP] l) = true ->
  filtered_sentences (join [SP] l) m = l.
Proof.
  intros Hk Hn. unfold filtered_sentences, sentences_of.
  rewrite (replace_fixed _ Hn), findall_join.
  - destruct Hk as [|x r (Hs & Hl & Hm) Hr]; [reflexivity |].
    simpl. rewrite Hm. simpl.
    rewrite (refilter_spaced _ _ Hr).
    rewrite (strip_sentence_lstrip _ Hs), (lstrip_fixed _ Hl).
    reflexivity.
  - eapply Forall_impl; [| exact Hk]. intros y Hy. apply Hy.
Qed.

Lemma restrip_sentences text m :
  map strip (sentences_of (preprocess_text text m))
  = filtered_sentences text m.
Proof.
  pose proof (filtered_sentences_kept text m) as Hk.
  pose proof (preprocess_text_no_newline text m) as Hn.
  unfold sentences_of, preprocess_text in *.
  rewrite (replace_fixed _ Hn), findall_join.
  - destruct Hk as [|x r (Hs & Hl & _) Hr]; [reflexivity |].
    simpl. rewrite (strip_sentence_lstrip _ Hs), (lstrip_fixed _ Hl).
    f_equal. rewrite map_map.
    rewrite <- (map_id r) at 2. apply map_ext_in. intros y Hy.
    rewrite Forall_forall in Hr. destruct (Hr y Hy) as (Hys & Hyl & _).
    apply strip_space_sentence; assumption.
  - eapply Forall_impl; [| exact Hk]. intros y Hy. apply Hy.
Qed.

Lemma filter_subseq {A : Type} (f : A -> bool) l : subseq (filter f l) l.
Proof.
  induction l as [|x l IH]; simpl; [constructor |].
  destruct (f x); constructor; exact IH.
Qed.

(** ** Running the function *)

(** One step of the code: the operations of a frame unfolded. *)
Ltac run :=
  cbv beta iota
      delta [bind load_global load_fast ret raise call_on_list int_ge].

Lemma comprehension_frame l fr : snd (comprehension l fr) = fr.
Proof.
  induction l as [|x l IH]; simpl; [reflexivity |]. run.
  destruct (resolve "len" (f_state fr)) as [v|]; [| reflexivity].
  destruct v; try reflexivity.
  destruct (lookup "min_length" (f_locals fr)) as [w|]; [| reflexivity].
  destruct w; try reflexivity.
  destruct (comprehension l fr) as [r fr'].
  simpl in IH. subst fr'. destruct r; reflexivity.
Qed.

Lemma comprehension_runs l fr m :
  resolve "len" (f_state fr) = Some VBuiltin_len ->
  lookup "min_length" (f_locals fr) = Some (VInt m) ->
  comprehension l fr
  = (Return (map strip (filter (long_enough m) l)), fr).
Proof.
  intros Hlen Hm. induction l as [|x l IH]; simpl; [reflexivity |]. run.
  rewrite Hlen, Hm, IH.
  unfold long_enough. destruct (_ >=? m)%Z; reflexivity.
Qed.

(** The outcome of the comprehension depends on the frame through the
    binding of [len] and the local [min_length] only. *)
Lemma comprehension_outcome l fr fr' :
  resolve "len" (f_state fr) = resolve "len" (f_state fr') ->
  lookup "min_length" (f_locals fr) = lookup "min_length" (f_locals fr') ->
  fst (comprehension l fr) = fst (comprehension l fr').
Proof.
  intros Hlen Hm. induction l as [|x l IH]; simpl; [reflexivity |]. run.
  rewrite <- Hlen.
  destruct (resolve "len" (f_state fr)) as [v|]; [| reflexivity].
  destruct v; try reflexivity.
  rewrite <- Hm.
  destruct (lookup "min_length" (f_locals fr)) as [w|]; [| reflexivity].
  destruct w; try reflexivity.
  destruct (comprehension l fr) as [r g].
  destruct (comprehension l fr') as [r' g'].
  simpl in IH. subst r'. destruct r; reflexivity.
Qed.

(** The body, its operations unfolded and its locals looked up. *)
Ltac run_body :=
  unfold call_preprocess_text, preprocess_text_body;
  cbv beta iota delta [bind load_fast store_fast method_replace ret raise
                       load_global attr_findall re_findall iterate];
  simpl.

Lemma call_preprocess_text_state st text min_length :
  snd (call_preprocess_text st text min_length) = st.
Proof.
  destruct text; try reflexivity. run_body.
  destruct (resolve "re" st) as [v|]; [| reflexivity].
  destruct v as [| | | |[]| |]; simpl; try reflexivity.
  match goal with
  | |- context [comprehension ?l ?fr] =>
      pose proof (comprehension_frame l fr) as E;
      destruct (comprehension l fr) as [r g]
  end.
  simpl in E. subst g. destruct r; reflexivity.
Qed.

Lemma call_preprocess_text_runs st text min_length :
  resolve "re" st = Some (VModule m_re) ->
  resolve "len" st = Some VBuiltin_len ->
  call_preprocess_text st (VStr text) min_length
  = (Return (VStr (preprocess_text text
                     match min_length with
                     | Some m => m
                     | None => default_min_length
                     end)), st).
Proof.
  intros Hre Hlen. run_body. rewrite Hre. simpl.
  erewrite comprehension_runs; [reflexivity | exact Hlen | reflexivity].
Qed.

(** The outcome of a call depends on the state through the bindings of
    [re] and [len] only. *)
Lemma call_preprocess_text_outcome st st' text min_length :
  resolve "re" st = resolve "re" st' ->
  resolve "len" st = resolve "len" st' ->
  fst (call_preprocess_text st text min_length)
  = fst (call_preprocess_text st' text min_length).
Proof.
  intros Hre Hlen. destruct text; try reflexivity. run_body.
  rewrite <- Hre.
  destruct (resolve "re" st) as [v|]; [| reflexivity].
  destruct v as [| | | |[]| |]; simpl; try reflexivity.
  match goal with
  | |- context [fst (let (_, _) := match comprehension ?l ?fr with _ => _ end
                     in _)
                = fst (let (_, _) := match comprehension _ ?fr' with _ => _ end
                       in _)] =>
      pose proof (comprehension_outcome l fr fr' Hlen eq_refl) as E;
      pose proof (comprehension_frame l fr) as F;
      pose proof (comprehension_frame l fr') as F';
      destruct (comprehension l fr) as [r g];
      destruct (comprehension l fr') as [r' g']
  end.
  simpl in E, F, F'. subst. destruct r'; reflexivity.
Qed.

(** Calls that raise, and one that does not need [len]. *)

Example call_re_unbound :
  call_preprocess_text
    {| globals := []; builtins := [("len"%string, VBuiltin_len)] |}
    (VStr (of_string "A b. c")) None
  = (Raise (NameError "re"),
     {| globals := []; builtins := [("len"%string, VBuiltin_len)] |}).
Proof. reflexivity. Qed.

Example call_re_rebound :
  fst (call_preprocess_text
         {| globals := [("re"%string, VNone)];
            builtins := [("len"%string, VBuiltin_len)] |}
         (VStr (of_string "A b. c")) None)
  = Raise AttributeError.
Proof. reflexivity. Qed.

Example call_len_rebound :
  let st := {| globals := [("re"%string, VModule m_re);
                           ("len"%string, VInt 3)];
               builtins := [("len"%string, VBuiltin_len)] |} in
  fst (call_preprocess_text st (VStr (of_string "A b. c")) (Some 1%Z))
  = Raise TypeError
  /\ fst (call_preprocess_text st (VStr (of_string "no mark")) (Some 1%Z))
     = Return (VStr []).
Proof. split; reflexivity. Qed.

Example call_on_a_list :
  fst (call_preprocess_text
         {| globals := [("re"%string, VModule m_re)];
            builtins := [("len"%string, VBuiltin_len)] |}
         (VList [of_string "A b."]) None)
  = Raise AttributeError.
Proof. reflexivity. Qed.

(** * The properties of the specification *)

(** C1. Normalization is idempotent: for every text and every minimum
    length, pre-processing the result of [preprocess_text] again, with the
    same minimum, returns that result unchanged. *)
Theorem preprocess_text_idempotent (text : str) (min_length : Z) :
  preprocess_text (preprocess_text text min_length) min_length
  = preprocess_text text min_length.
Proof.
  unfold preprocess_text.
  rewrite filtered_sentences_join; [reflexivity | |].
  - apply filtered_sentences_kept.
  - apply preprocess_text_no_newline.
Qed.

(** C2. A sentence that [preprocess_text] extracts is kept (stripped) in
    the list that is joined into the result, and is one of the sentences
    of the result, if and only if it has at least [min_length] words;
    the minimum is 5 when the argument is left out. *)
Theorem sentence_length_filter :
  default_min_length = 5%Z /\
  (forall text, preprocess_text_default text = preprocess_text text 5) /\
  forall (text : str) (min_length : Z) (s : str),
    In s (sentences_of text) ->
    (In (strip s) (filtered_sentences text min_length)
     <-> (min_length <= Z.of_nat (length (split s)))%Z) /\
    (In (strip s)
        (map strip (sentences_of (preprocess_text text min_length)))
     <-> (min_length <= Z.of_nat (length (split s)))%Z).
Proof.
  split; [reflexivity |]. split; [reflexivity |].
  intros text m s Hs. rewrite restrip_sentences.
  assert (In (strip s) (filtered_sentences text m)
          <-> (m <= Z.of_nat (length (split s)))%Z) as H; [| tauto].
  rewrite filtered_sentences_In. split.
  - intros (x & _ & Hm & Hx).
    rewrite <- long_enough_strip, <- Hx, long_enough_strip in Hm.
    unfold long_enough in Hm. apply Z.geb_le in Hm. exact Hm.
  - intros Hm. exists s. repeat split; [exact Hs |].
    unfold long_enough. apply Z.geb_le. exact Hm.
Qed.

Lemma sentence_length_filter_witness :
  let text := of_string "One two three four five. Too short." in
  let s := of_string " Too short." in
  In s (sentences_of text) /\
  (In (strip s) (filtered_sentences text 5)
   <-> (5 <= Z.of_nat (length (split s)))%Z).
Proof.
  assert (In (of_string " Too short.")
            (sentences_of
               (of_string "One two three four five. Too short."))) as H.
  { vm_compute. right. left. reflexivity. }
  split; [exact H |].
  apply (proj2 (proj2 sentence_length_filter) _ 5%Z _ H).
Defined.

(** C3. The sentences that [preprocess_text] extracts are runs of
    characters other than '.', '!' and '?' closed by one such character;
    put end to end they give back the text up to its last such character,
    and they are the only such cutting of the text. *)
Theorem sentence_extraction (text : str) :
  let text' := replace CR SP (replace LF SP text) in
  Forall is_sentence (sentences_of text) /\
  (exists tail,
      no_terminal tail = true /\
      text' = concat (sentences_of text) ++ tail) /\
  (forall l tail,
      Forall is_sentence l -> no_terminal tail = true ->
      text' = concat l ++ tail -> l = sentences_of text).
Proof.
  intros text'. unfold sentences_of. fold text'.
  destruct (findall_partition text') as [Hall Hcut].
  split; [exact Hall |]. split; [exact Hcut |].
  intros l tail Hl Ht ->. symmetry. apply findall_concat; assumption.
Qed.

Lemma sentence_extraction_witness :
  let text := of_string "Hi there! Is it? Yes. and" in
  let l :=
    [of_string "Hi there!"; of_string " Is it?"; of_string " Yes."] in
  l = sentences_of text.
Proof.
  intros text l.
  apply (proj2 (proj2 (sentence_extraction text)) l (of_string " and")).
  - repeat constructor.
    + exists (of_string "Hi there"), 33%N. auto.
    + exists (of_string " Is it"), 63%N. auto.
    + exists (of_string " Yes"), 46%N. auto.
  - reflexivity.
  - reflexivity.
Defined.

(** C4. The result of [preprocess_text] is the sentences that pass the
    filter, each without the white space around it and otherwise as it
    is, with one space between two of them, in the order they have in the
    text. *)
Theorem order_preserving_rejoin (text : str) (min_length : Z) :
  let survivors :=
    filter (fun s => (min_length <=? Z.of_nat (length (split s)))%Z)
           (sentences_of text) in
  subseq survivors (sentences_of text) /\
  (exists tail,
      replace CR SP (replace LF SP text)
      = concat (sentences_of text) ++ tail) /\
  Forall (fun s => exists lead trail,
              all_space lead = true /\ all_space trail = true /\
              s = lead ++ strip s ++ trail)
         survivors /\
  Forall (fun y => no_leading_space y = true /\ no_trailing_space y = true)
         (map strip survivors) /\
  preprocess_text text min_length = join [SP] (map strip survivors) /\
  preprocess_text text min_length =
    match map strip survivors with
    | [] => []
    | first :: others => first ++ concat (map (cons SP) others)
    end.
Proof.
  intros survivors.
  assert (survivors = filter (long_enough min_length) (sentences_of text))
    as Hsurv.
  { apply filter_ext. intros s. unfold long_enough.
    rewrite Z.geb_leb. reflexivity. }
  split; [apply filter_subseq |]. split.
  { unfold sentences_of.
    destruct (findall_partition (replace CR SP (replace LF SP text)))
      as [_ (tail & _ & H)]. eauto. }
  split.
  { apply Forall_forall. intros s _. apply strip_split. }
  split.
  { apply Forall_forall. intros y Hy.
    apply in_map_iff in Hy as (x & <- & _).
    split; [apply strip_no_leading | apply strip_no_trailing]. }
  assert (preprocess_text text min_length = join [SP] (map strip survivors))
    as Hjoin.
  { rewrite Hsurv. reflexivity. }
  split; [exact Hjoin |].
  rewrite Hjoin. destruct (map strip survivors) as [|x r]; [reflexivity |].
  apply join_cons.
Qed.

(** C5. The result of [preprocess_text] holds no line feed and no carriage
    return: each of them is turned into one space before the sentences are
    extracted. *)
Theorem no_line_breaks (text : str) (min_length : Z) :
  sentences_of text
  = findall (map (fun c => if ((c =? LF) || (c =? CR))%N then SP else c)
                 text) /\
  ~ In LF (preprocess_text text min_length) /\
  ~ In CR (preprocess_text text min_length).
Proof.
  split.
  { unfold sentences_of, replace. rewrite map_map. f_equal.
    apply map_ext. intros c.
    destruct (N.eqb_spec c LF) as [->|_]; reflexivity. }
  pose proof (preprocess_text_no_newline text min_length) as H.
  unfold no_newline in H. rewrite forallb_forall in H.
  split; intros Hin; apply H in Hin; discriminate.
Qed.

(** C6. A call of [preprocess_text] changes no variable of the module and
    no builtin, whether it returns or raises; with [re] and [len] bound as
    the notebook has them it returns its string, which depends on the two
    arguments only; two calls with the same arguments, one after the
    other, have the same outcome, and so have two calls in states that
    bind [re] and [len] alike. *)
Theorem preprocess_text_pure (st : state) (text : str)
    (min_length : option Z) :
  let m := match min_length with
           | Some m => m
           | None => default_min_length
           end in
  (forall v, snd (call_preprocess_text st v min_length) = st) /\
  (resolve "re" st = Some (VModule m_re) ->
   resolve "len" st = Some VBuiltin_len ->
   call_preprocess_text st (VStr text) min_length
   = (Return (VStr (preprocess_text text m)), st)) /\
  (let (r1, st1) := call_preprocess_text st (VStr text) min_length in
   let (r2, st2) := call_preprocess_text st1 (VStr text) min_length in
   r1 = r2 /\ st2 = st) /\
  (forall st',
      resolve "re" st' = resolve "re" st ->
      resolve "len" st' = resolve "len" st ->
      fst (call_preprocess_text st' (VStr text) min_length)
      = fst (call_preprocess_text st (VStr text) min_length)).
Proof.
  intros m.
  pose proof (call_preprocess_text_state st (VStr text) min_length) as Hst.
  split; [intros v; apply call_preprocess_text_state |]. split; [| split].
  - apply call_preprocess_text_runs.
  - destruct (call_preprocess_text st (VStr text) min_length) as [r1 st1]
      eqn:E1.
    simpl in Hst. subst st1. rewrite E1. auto.
  - intros st' Hre Hlen. apply call_preprocess_text_outcome; assumption.
Qed.

Lemma preprocess_text_pure_witness :
  let st := {| globals := [("re"%string, VModule m_re);
                           ("book_text"%string, VStr (of_string "x"))];
               builtins := [("len"%string, VBuiltin_len)] |} in
  call_preprocess_text st (VStr (of_string "A b c d e. F g.")) None
  = (Return (VStr (of_string "A b c d e.")), st).
Proof.
  intros st.
  apply (proj1 (proj2 (preprocess_text_pure st
                         (of_string "A b c d e. F g.") None)));
    reflexivity.
Defined.

(** C7. The chunker is built with the documented defaults: similarity
    threshold 0.3 (the double nearest to 3/10), skip window 5 and chunk
    size 256. *)
Theorem chunker_documented_defaults :
  similarity_threshold chunker = documented_similarity_threshold /\
  similarity_threshold chunker
  = PrimFloat.div (PrimFloat.of_uint63 3%uint63)
                  (PrimFloat.of_uint63 10%uint63) /\
  skip_window chunker = documented_skip_window /\
  chunk_size chunker = documented_chunk_size /\
  skip_window chunker = 5%Z /\ chunk_size chunker = 256%Z.
Proof. repeat split; reflexivity. Qed.

(** C9. What follows the last '.', '!' or '?' of the text is dropped:
    text without such a character, added at the end, does not change the
    result, and a text without any gives the empty string. *)
Theorem trailing_text_dropped :
  (forall (text tail : str) (min_length : Z),
      no_terminal tail = true ->
      preprocess_text (text ++ tail) min_length
      = preprocess_text text min_length) /\
  (forall (text : str) (min_length : Z),
      no_terminal text = true -> preprocess_text text min_length = []).
Proof.
  assert (forall text tail, no_terminal tail = true ->
            sentences_of (text ++ tail) = sentences_of text) as H.
  { intros text tail Ht. unfold sentences_of.
    rewrite !replace_app. apply findall_app_tail.
    apply replace_no_terminal, replace_no_terminal, Ht. }
  split.
  - intros text tail m Ht. unfold preprocess_text, filtered_sentences.
    rewrite (H _ _ Ht). reflexivity.
  - intros text m Ht. unfold preprocess_text, filtered_sentences.
    rewrite <- (app_nil_l text), (H _ _ Ht). reflexivity.
Qed.

Lemma trailing_text_dropped_witness :
  preprocess_text
    (of_string "One two three four five." ++ of_string " and so on") 5
  = preprocess_text (of_string "One two three four five.") 5
  /\ preprocess_text (of_string "no full stop here at all") 1 = [].
Proof.
  split.
  - apply (proj1 trailing_text_dropped). reflexivity.
  - apply (proj2 trailing_text_dropped). reflexivity.
Defined.

(** C10. White space inside a sentence is left as it is: of a sentence
    that passes the filter the result holds everything but the white
    space before it; a text that is one such sentence, without white space
    before it and without line breaks, is returned as it is; two spaces,
    also those that come from a line break after a space, stay two. *)
Theorem interior_whitespace_kept :
  (forall (text : str) (min_length : Z) (x : str),
      In x (sentences_of text) -> long_enough min_length x = true ->
      exists lead pre post,
        all_space lead = true /\ x = lead ++ strip x /\
        no_leading_space (strip x) = true /\
        preprocess_text text min_length = pre ++ strip x ++ post) /\
  (forall (s : str) (min_length : Z),
      is_sentence s -> no_leading_space s = true ->
      no_newline s = true -> long_enough min_length s = true ->
      preprocess_text s min_length = s) /\
  preprocess_text
    (of_string "one two  three " ++ [LF] ++ of_string "four   five.") 5
  = of_string "one two  three  four   five.".
Proof.
  split; [| split; [| reflexivity]].
  - intros text m x Hx Hm.
    pose proof (sentences_of_sentence _ _ Hx) as Hs.
    destruct (lstrip_split x) as (lead & Hl & Hlx).
    rewrite <- (strip_sentence_lstrip _ Hs) in Hlx.
    assert (In (strip x) (filtered_sentences text m)) as Hy.
    { apply filtered_sentences_In. eauto. }
    destruct (join_occurs [SP] _ _ Hy) as (pre & post & Hj).
    exists lead, pre, post.
    repeat split; [exact Hl | exact Hlx | apply strip_no_leading | exact Hj].
  - intros s m Hs Hl Hn Hm.
    unfold preprocess_text, filtered_sentences.
    rewrite (sentences_of_single _ Hs Hn). simpl. rewrite Hm. simpl.
    rewrite (strip_sentence_lstrip _ Hs). apply lstrip_fixed, Hl.
Qed.

Lemma interior_whitespace_kept_witness :
  let s := of_string "one  two   three four    five." in
  let x := of_string "   " ++ s in
  let text := of_string "Intro.   one  two   three four    five." in
  preprocess_text s 5 = s /\
  exists lead pre post,
    all_space lead = true /\ x = lead ++ strip x /\
    no_leading_space (strip x) = true /\
    preprocess_text text 5 = pre ++ strip x ++ post.
Proof.
  intros s x text. split.
  - apply (proj1 (proj2 interior_whitespace_kept) s 5%Z).
    + exists (of_string "one  two   three four    five"), 46%N. auto.
    + reflexivity.
    + reflexivity.
    + reflexivity.
  - apply (proj1 interior_whitespace_kept text 5%Z).
    + vm_compute. right. left. reflexivity.
    + reflexivity.
Defined.

(** * Further properties of the code *)

(** ** Counting sentences *)

Lemma terminals_app s t : terminals (s ++ t) = terminals s ++ terminals t.
Proof. apply filter_app. Qed.

Lemma terminals_no_terminal s : no_terminal s = true -> terminals s = [].
Proof.
  unfold terminals, no_terminal. induction s as [|c r IH]; simpl.
  - reflexivity.
  - intros H. apply andb_prop in H as [Hc Hr].
    apply negb_true_iff in Hc. rewrite Hc. auto.
Qed.

Lemma terminals_sentence x : is_sentence x -> length (terminals x) = 1.
Proof.
  intros (body & c & -> & Hb & Hc).
  rewrite terminals_app, (terminals_no_terminal _ Hb).
  unfold terminals. simpl. rewrite Hc. reflexivity.
Qed.

Lemma terminals_concat l :
  Forall is_sentence l -> length (terminals (concat l)) = length l.
Proof.
  induction 1 as [|x l Hx _ IH]; simpl; [reflexivity |].
  rewrite terminals_app, length_app, (terminals_sentence _ Hx), IH.
  reflexivity.
Qed.

Lemma terminals_replace old s :
  is_terminal old = false ->
  length (terminals (replace old SP s)) = length (terminals s).
Proof.
  intros Ho. unfold terminals, replace.
  induction s as [|c r IH]; simpl; [reflexivity |].
  destruct (N.eqb_spec c old) as [->|_].
  - rewrite Ho. simpl. exact IH.
  - destruct (is_terminal c); simpl; rewrite IH; reflexivity.
Qed.

Lemma sentences_of_length text :
  length (sentences_of text) = length (terminals text).
Proof.
  unfold sentences_of.
  rewrite <- (terminals_replace LF text eq_refl).
  rewrite <- (terminals_replace CR (replace LF SP text) eq_refl).
  destruct (findall_partition (replace CR SP (replace LF SP text)))
    as [Hall (tail & Ht & Hs)].
  rewrite Hs at 2.
  rewrite terminals_app, (terminals_no_terminal _ Ht), app_nil_r.
  symmetry. apply terminals_concat, Hall.
Qed.

(** X1. There are as many sentences as the text has characters '.', '!'
    and '?', and no more sentences are kept than that. *)
Theorem sentences_count (text : str) (min_length : Z) :
  length (sentences_of text) = length (terminals text) /\
  length (filtered_sentences text min_length) <= length (terminals text).
Proof.
  split; [apply sentences_of_length |].
  unfold filtered_sentences.
  rewrite length_map, <- sentences_of_length. apply filter_length_le.
Qed.

(** ** Words *)

Lemma split_from_pending cur s : cur <> [] -> split_from cur s <> [].
Proof.
  revert cur. induction s as [|c r IH]; intros cur H; simpl.
  - destruct cur; [contradiction | discriminate].
  - destruct (is_space c).
    + destruct cur; [contradiction | discriminate].
    + apply IH. discriminate.
Qed.

Lemma split_from_visible cur s c :
  In c s -> is_space c = false -> split_from cur s <> [].
Proof.
  revert cur. induction s as [|d r IH]; intros cur Hin Hc; simpl.
  - destruct Hin.
  - destruct (is_space d) eqn:Ed.
    + destruct Hin as [->|Hin]; [congruence |].
      destruct cur; [apply IH; assumption | discriminate].
    + apply split_from_pending. discriminate.
Qed.

Lemma sentence_has_word x : is_sentence x -> 1 <= length (split x).
Proof.
  intros (body & c & -> & _ & Hc).
  assert (split (body ++ [c]) <> []) as H.
  { apply (split_from_visible [] _ c).
    - apply in_or_app. right. left. reflexivity.
    - apply terminal_not_space, Hc. }
  destruct (split (body ++ [c])); [contradiction | simpl; lia].
Qed.

Lemma filter_all {A : Type} (f : A -> bool) l :
  (forall x, In x l -> f x = true) -> filter f l = l.
Proof.
  induction l as [|x l IH]; simpl; intros H; [reflexivity |].
  rewrite (H x (or_introl eq_refl)). f_equal. auto.
Qed.

(** X2. Every sentence has a word, the one that ends with its
    punctuation mark: with a minimum of 1 or less the filter drops
    nothing. *)
Theorem low_minimum_keeps_all (text : str) (min_length : Z) :
  (min_length <= 1)%Z ->
  Forall (fun x => 1 <= length (split x)) (sentences_of text) /\
  filtered_sentences text min_length = map strip (sentences_of text) /\
  length (filtered_sentences text min_length) = length (terminals text).
Proof.
  intros Hm.
  assert (Forall (fun x => 1 <= length (split x)) (sentences_of text)) as Hw.
  { apply Forall_forall. intros x Hx.
    apply sentence_has_word, (sentences_of_sentence text), Hx. }
  assert (filtered_sentences text min_length = map strip (sentences_of text))
    as Hf.
  { unfold filtered_sentences. rewrite filter_all; [reflexivity |].
    intros x Hx. rewrite Forall_forall in Hw. specialize (Hw x Hx).
    unfold long_enough. apply Z.geb_le. lia. }
  split; [exact Hw |]. split; [exact Hf |].
  rewrite Hf, length_map. apply sentences_of_length.
Qed.

Lemma low_minimum_keeps_all_witness :
  filtered_sentences (of_string "Yes. No! Why not? so") 0
  = map strip (sentences_of (of_string "Yes. No! Why not? so")).
Proof.
  apply (low_minimum_keeps_all (of_string "Yes. No! Why not? so") 0).
  lia.
Defined.

Lemma subseq_refl {A : Type} (l : list A) : subseq l l.
Proof. induction l; constructor; assumption. Qed.

Lemma subseq_map {A B : Type} (f : A -> B) l1 l2 :
  subseq l1 l2 -> subseq (map f l1) (map f l2).
Proof. induction 1; simpl; constructor; assumption. Qed.

Lemma filter_weaker_subseq {A : Type} (f g : A -> bool) l :
  (forall x, f x = true -> g x = true) ->
  subseq (filter f l) (filter g l).
Proof.
  intros H. induction l as [|x l IH]; simpl; [constructor |].
  destruct (f x) eqn:Ef.
  - rewrite (H x Ef). apply subseq_keep, IH.
  - destruct (g x); [apply subseq_skip |]; exact IH.
Qed.

(** X3. A larger minimum keeps fewer sentences: what is kept with the
    larger one is kept, in the same order, with the smaller one. *)
Theorem minimum_monotone (text : str) (m m' : Z) :
  (m <= m')%Z ->
  subseq (filtered_sentences text m') (filtered_sentences text m).
Proof.
  intros Hm. unfold filtered_sentences.
  apply subseq_map, filter_weaker_subseq.
  intros x. unfold long_enough. rewrite !Z.geb_le. lia.
Qed.

Lemma minimum_monotone_witness :
  subseq
    (filtered_sentences (of_string "A b c. D e. F g h i.") 3)
    (filtered_sentences (of_string "A b c. D e. F g h i.") 2).
Proof.
  apply (minimum_monotone (of_string "A b c. D e. F g h i.") 2 3). lia.
Defined.

Lemma split_from_space cur x y :
  split_from cur (x ++ SP :: y) = split_from cur x ++ split y.
Proof.
  revert cur. induction x as [|c r IH]; intros cur; simpl.
  - destruct cur; reflexivity.
  - destruct (is_space c).
    + destruct cur; rewrite IH; reflexivity.
    + apply IH.
Qed.

Lemma split_join l : split (join [SP] l) = concat (map split l).
Proof.
  induction l as [|x r IH]; [reflexivity |].
  destruct r as [|y r].
  - simpl. rewrite app_nil_r. reflexivity.
  - change (join [SP] (x :: y :: r)) with (x ++ SP :: join [SP] (y :: r)).
    unfold split at 1. rewrite split_from_space, IH. reflexivity.
Qed.

Lemma concat_length_ge (m : Z) (l : list (list str)) :
  Forall (fun ws => (m <= Z.of_nat (length ws))%Z) l ->
  (m * Z.of_nat (length l) <= Z.of_nat (length (concat l)))%Z.
Proof.
  induction 1 as [|ws l Hws _ IH]; simpl; [lia |].
  rewrite length_app. lia.
Qed.

(** X4. The words of the result are the words of the sentences that pass
    the filter, in order; so the result has at least [min_length] words
    for each sentence it holds. *)
Theorem words_of_result (text : str) (min_length : Z) :
  let survivors := filter (long_enough min_length) (sentences_of text) in
  split (preprocess_text text min_length) = concat (map split survivors) /\
  (min_length * Z.of_nat (length survivors)
   <= Z.of_nat (length (split (preprocess_text text min_length))))%Z.
Proof.
  intros survivors.
  assert (split (preprocess_text text min_length)
          = concat (map split survivors)) as H.
  { unfold preprocess_text, filtered_sentences. fold survivors.
    rewrite split_join, map_map. f_equal.
    apply map_ext. intros x. apply split_strip. }
  split; [exact H |].
  rewrite H, <- (length_map split survivors).
  apply concat_length_ge, Forall_forall.
  intros ws Hws. apply in_map_iff in Hws as (x & <- & Hx).
  apply filter_In in Hx as [_ Hx].
  unfold long_enough in Hx. apply Z.geb_le in Hx. exact Hx.
Qed.

(** ** The shape of the result *)

Lemma sentence_not_nil x : is_sentence x -> x <> [].
Proof.
  intros (body & c & -> & _). destruct body; discriminate.
Qed.

Lemma join_ends l :
  l <> [] -> Forall is_sentence l ->
  exists body c, join [SP] l = body ++ [c] /\ is_terminal c = true.
Proof.
  intros Hne Hl. induction Hl as [|x r Hx Hr IH]; [contradiction |].
  destruct r as [|y r].
  - destruct Hx as (body & c & -> & _ & Hc). exists body, c. auto.
  - destruct IH as (body & c & Hj & Hc); [discriminate |].
    exists (x ++ SP :: body), c. split; [| exact Hc].
    change (join [SP] (x :: y :: r)) with (x ++ SP :: join [SP] (y :: r)).
    rewrite Hj, <- app_assoc. reflexivity.
Qed.

Lemma join_no_leading x r :
  x <> [] -> no_leading_space x = true ->
  no_leading_space (join [SP] (x :: r)) = true.
Proof.
  intros Hne Hx. rewrite join_cons.
  destruct x; [contradiction | exact Hx].
Qed.

(** X5. The result is empty, when no sentence passes the filter, or it
    begins with a character that is not white space and ends with '.', '!'
    or '?': stripping it changes nothing. *)
Theorem result_shape (text : str) (min_length : Z) :
  let result := preprocess_text text min_length in
  (result = [] <-> filtered_sentences text min_length = []) /\
  (result <> [] ->
   exists body c, result = body ++ [c] /\ is_terminal c = true) /\
  no_leading_space result = true /\
  no_trailing_space result = true /\
  strip result = result.
Proof.
  intros result. unfold result, preprocess_text.
  pose proof (filtered_sentences_kept text min_length) as Hk.
  assert (Forall is_sentence (filtered_sentences text min_length)) as Hs.
  { eapply Forall_impl; [| exact Hk]. intros y Hy. apply Hy. }
  destruct (filtered_sentences text min_length) as [|x r] eqn:El.
  - repeat split; intros; try reflexivity; contradiction.
  - destruct (join_ends (x :: r) ltac:(discriminate) Hs)
      as (body & c & Hj & Hc).
    inversion Hk as [|? ? (Hx & Hlx & _) _]; subst.
    pose proof (join_no_leading x r (sentence_not_nil _ Hx) Hlx) as Hlead.
    assert (no_trailing_space (join [SP] (x :: r)) = true) as Htrail.
    { rewrite Hj. unfold no_trailing_space. rewrite rev_app_distr. simpl.
      rewrite (terminal_not_space _ Hc). reflexivity. }
    split.
    { split; [| discriminate]. rewrite Hj. intros H.
      destruct body; discriminate. }
    split; [intros _; exists body, c; auto |].
    split; [exact Hlead |]. split; [exact Htrail |].
    unfold strip. rewrite lstrip_fixed by exact Hlead.
    apply rstrip_fixed, Htrail.
Qed.

Lemma result_shape_witness :
  exists body c,
    preprocess_text (of_string "to be. Or not to be?") 2 = body ++ [c]
    /\ is_terminal c = true.
Proof.
  apply (proj1 (proj2 (result_shape (of_string "to be. Or not to be?") 2))).
  vm_compute. discriminate.
Defined.

(** ** What the result keeps of the text *)

Lemma visible_app s t : visible (s ++ t) = visible s ++ visible t.
Proof. apply filter_app. Qed.

Lemma visible_all_space s : all_space s = true -> visible s = [].
Proof.
  unfold visible, all_space. induction s as [|c r IH]; simpl.
  - reflexivity.
  - intros H. apply andb_prop in H as [Hc Hr]. rewrite Hc. simpl. auto.
Qed.

Lemma visible_strip s : visible (strip s) = visible s.
Proof.
  destruct (strip_split s) as (lead & trail & Hl & Ht & Hs).
  rewrite Hs at 2. rewrite !visible_app.
  rewrite (visible_all_space _ Hl), (visible_all_space _ Ht), app_nil_r.
  reflexivity.
Qed.

Lemma visible_replace old s :
  is_space old = true -> visible (replace old SP s) = visible s.
Proof.
  intros Ho. unfold visible, replace.
  induction s as [|c r IH]; simpl; [reflexivity |].
  destruct (N.eqb_spec c old) as [->|_].
  - rewrite Ho. simpl. exact IH.
  - destruct (is_space c); simpl; rewrite IH; reflexivity.
Qed.

Lemma visible_join l : visible (join [SP] l) = concat (map visible l).
Proof.
  induction l as [|x r IH]; [reflexivity |].
  destruct r as [|y r].
  - simpl. rewrite app_nil_r. reflexivity.
  - change (join [SP] (x :: y :: r)) with (x ++ SP :: join [SP] (y :: r)).
    rewrite visible_app.
    change (visible (SP :: join [SP] (y :: r)))
      with (visible (join [SP] (y :: r))).
    rewrite IH. reflexivity.
Qed.

Lemma visible_concat l : visible (concat l) = concat (map visible l).
Proof.
  induction l as [|x r IH]; simpl; [reflexivity |].
  rewrite visible_app, IH. reflexivity.
Qed.

Lemma subseq_trans {A : Type} (l1 l2 l3 : list A) :
  subseq l1 l2 -> subseq l2 l3 -> subseq l1 l3.
Proof.
  intros H12 H23. revert l1 H12.
  induction H23 as [|x l2 l3 _ IH|x l2 l3 _ IH]; intros l1 H12.
  - exact H12.
  - apply subseq_skip, IH, H12.
  - inversion H12 as [|? ? ? H|? ? ? H]; subst.
    + apply subseq_skip, IH, H.
    + apply subseq_keep, IH, H.
Qed.

Lemma subseq_app {A : Type} (l1 l2 k1 k2 : list A) :
  subseq l1 l2 -> subseq k1 k2 -> subseq (l1 ++ k1) (l2 ++ k2).
Proof.
  induction 1; intros Hk; simpl.
  - exact Hk.
  - apply subseq_skip. auto.
  - apply subseq_keep. auto.
Qed.

Lemma subseq_nil_l {A : Type} (l : list A) : subseq [] l.
Proof. induction l; constructor; assumption. Qed.

Lemma subseq_prefix {A : Type} (l t : list A) : subseq l (l ++ t).
Proof.
  induction l as [|x l IH]; simpl.
  - apply subseq_nil_l.
  - apply subseq_keep, IH.
Qed.

Lemma subseq_filter {A : Type} (f : A -> bool) l1 l2 :
  subseq l1 l2 -> subseq (filter f l1) (filter f l2).
Proof.
  induction 1 as [|x l1 l2 _ IH|x l1 l2 _ IH]; simpl.
  - constructor.
  - destruct (f x); [apply subseq_skip |]; exact IH.
  - destruct (f x); [apply subseq_keep |]; exact IH.
Qed.

Lemma subseq_concat {A : Type} (l1 l2 : list (list A)) :
  subseq l1 l2 -> subseq (concat l1) (concat l2).
Proof.
  induction 1 as [|x l1 l2 _ IH|x l1 l2 _ IH]; simpl.
  - constructor.
  - rewrite <- (app_nil_l (concat l1)).
    apply subseq_app; [apply subseq_nil_l | exact IH].
  - apply subseq_app; [apply subseq_refl | exact IH].
Qed.

(** X6. White space apart, the function only leaves characters out: the
    characters of the result that are not white space are characters of
    the text, in the order of the text. *)
Theorem result_within_text (text : str) (min_length : Z) :
  subseq (visible (preprocess_text text min_length)) (visible text).
Proof.
  unfold preprocess_text, filtered_sentences.
  rewrite visible_join, map_map.
  rewrite (map_ext (fun x => visible (strip x)) visible visible_strip).
  rewrite <- visible_concat.
  rewrite <- (visible_replace LF text eq_refl).
  rewrite <- (visible_replace CR (replace LF SP text) eq_refl).
  apply subseq_filter.
  unfold sentences_of.
  destruct (findall_partition (replace CR SP (replace LF SP text)))
    as [_ (tail & _ & Hs)].
  rewrite Hs at 2.
  eapply subseq_trans; [apply subseq_concat, filter_subseq |].
  apply subseq_prefix.
Qed.

(** ** Texts put end to end *)

Lemma findall_concat_app l rest :
  Forall is_sentence l -> findall (concat l ++ rest) = l ++ findall rest.
Proof.
  induction 1 as [|x l Hx _ IH]; simpl; [reflexivity |].
  rewrite <- app_assoc, (findall_sentence_app _ _ Hx), IH. reflexivity.
Qed.

Lemma ends_sentence_replace old s :
  is_terminal old = false ->
  ends_sentence (replace old SP s) = ends_sentence s.
Proof.
  intros Ho. unfold ends_sentence, replace. rewrite <- map_rev.
  unfold str, char in *.
  destruct (rev s) as [|c r]; simpl; [reflexivity |].
  destruct (N.eqb_spec c old) as [->|_]; [| reflexivity].
  rewrite Ho. reflexivity.
Qed.

Lemma ends_sentence_cut s :
  ends_sentence s = true -> s = concat (findall s).
Proof.
  intros He. destruct (findall_partition s) as [_ (tail & Ht & Hs)].
  destruct (rev tail) as [|c r] eqn:Er.
  - apply (f_equal (@rev char)) in Er. rewrite rev_involutive in Er.
    subst tail. rewrite app_nil_r in Hs. exact Hs.
  - exfalso. apply (f_equal (@rev char)) in Er.
    rewrite rev_involutive in Er. simpl in Er. subst tail.
    unfold no_terminal in Ht. rewrite forallb_app in Ht.
    apply andb_prop in Ht as [_ Ht]. simpl in Ht.
    rewrite Hs in He. unfold ends_sentence in He.
    rewrite app_assoc, rev_app_distr in He. simpl in He.
    rewrite He in Ht. discriminate.
Qed.

Lemma sentences_of_app t1 t2 :
  ends_sentence t1 = true ->
  sentences_of (t1 ++ t2) = sentences_of t1 ++ sentences_of t2.
Proof.
  intros He. unfold sentences_of. rewrite !replace_app.
  set (t1' := replace CR SP (replace LF SP t1)).
  assert (ends_sentence t1' = true) as He'.
  { unfold t1'. rewrite !ends_sentence_replace; auto. }
  rewrite (ends_sentence_cut _ He') at 1.
  apply findall_concat_app.
  destruct (findall_partition t1') as [Hall _]. exact Hall.
Qed.

Lemma join_sentences_nil l :
  Forall is_sentence l -> join [SP] l = [] -> l = [].
Proof.
  intros Hl Hj. destruct l as [|x r]; [reflexivity |].
  destruct (join_ends (x :: r) ltac:(discriminate) Hl) as (body & c & H & _).
  rewrite H in Hj. destruct body; discriminate.
Qed.

Lemma join_app sep (l1 l2 : list str) :
  l1 <> [] -> l2 <> [] ->
  join sep (l1 ++ l2) = join sep l1 ++ sep ++ join sep l2.
Proof.
  intros H1 H2. induction l1 as [|x r IH]; [contradiction |].
  destruct r as [|y r].
  - destruct l2; [contradiction | reflexivity].
  - change (join sep ((x :: y :: r) ++ l2))
      with (x ++ sep ++ join sep ((y :: r) ++ l2)).
    rewrite IH by discriminate.
    change (join sep (x :: y :: r)) with (x ++ sep ++ join sep (y :: r)).
    rewrite <- !app_assoc. reflexivity.
Qed.

Lemma filtered_sentences_sentence text m :
  Forall is_sentence (filtered_sentences text m).
Proof.
  eapply Forall_impl; [| apply filtered_sentences_kept].
  intros y Hy. apply Hy.
Qed.

(** X7. A text cut after a '.', '!' or '?' can be processed in two
    pieces: the sentences kept are those of the first piece followed by
    those of the second, and the result is the two results with one space
    between them (or the one that is not empty). *)
Theorem process_in_pieces (t1 t2 : str) (min_length : Z) :
  ends_sentence t1 = true ->
  let r1 := preprocess_text t1 min_length in
  let r2 := preprocess_text t2 min_length in
  filtered_sentences (t1 ++ t2) min_length
  = filtered_sentences t1 min_length ++ filtered_sentences t2 min_length /\
  preprocess_text (t1 ++ t2) min_length
  = match r1, r2 with
    | [], _ => r2
    | _, [] => r1
    | _, _ => r1 ++ SP :: r2
    end.
Proof.
  intros He r1 r2.
  assert (filtered_sentences (t1 ++ t2) min_length
          = filtered_sentences t1 min_length
            ++ filtered_sentences t2 min_length) as Hf.
  { unfold filtered_sentences.
    rewrite (sentences_of_app _ _ He), filter_app, map_app. reflexivity. }
  split; [exact Hf |].
  unfold preprocess_text at 1. rewrite Hf.
  pose proof (join_sentences_nil _ (filtered_sentences_sentence t1 min_length))
    as H1.
  pose proof (join_sentences_nil _ (filtered_sentences_sentence t2 min_length))
    as H2.
  fold (preprocess_text t1 min_length) in H1. fold r1 in H1.
  fold (preprocess_text t2 min_length) in H2. fold r2 in H2.
  destruct (filtered_sentences t1 min_length) as [|x1 l1] eqn:E1.
  { assert (r1 = []) as -> by (unfold r1, preprocess_text; rewrite E1;
                               reflexivity).
    simpl. unfold r2, preprocess_text. reflexivity. }
  destruct (filtered_sentences t2 min_length) as [|x2 l2] eqn:E2.
  { assert (r2 = []) as -> by (unfold r2, preprocess_text; rewrite E2;
                               reflexivity).
    rewrite app_nil_r.
    assert (join [SP] (x1 :: l1) = r1) as ->
        by (unfold r1, preprocess_text; rewrite E1; reflexivity).
    destruct r1; reflexivity. }
  rewrite join_app by discriminate.
  assert (join [SP] (x1 :: l1) = r1) as ->
      by (unfold r1, preprocess_text; rewrite E1; reflexivity).
  assert (join [SP] (x2 :: l2) = r2) as ->
      by (unfold r2, preprocess_text; rewrite E2; reflexivity).
  destruct r1 as [|c1 r1']; [specialize (H1 eq_refl); discriminate |].
  destruct r2 as [|c2 r2']; [specialize (H2 eq_refl); discriminate |].
  reflexivity.
Qed.

Lemma process_in_pieces_witness :
  preprocess_text
    (of_string "One two three. Four." ++ of_string "Five six seven! rest") 3
  = of_string "One two three. Five six seven!".
Proof.
  apply (proj2 (process_in_pieces (of_string "One two three. Four.")
                  (of_string "Five six seven! rest") 3 eq_refl)).
Defined.

(** ** White space between sentences *)

Lemma lstrip_all_space lead s :
  all_space lead = true -> lstrip (lead ++ s) = lstrip s.
Proof.
  induction lead as [|c lead IH]; simpl; [reflexivity |].
  intros H. apply andb_prop in H as [Hc Hl]. rewrite Hc. auto.
Qed.

Lemma all_space_no_terminal ws : all_space ws = true -> no_terminal ws = true.
Proof.
  unfold all_space, no_terminal. rewrite !forallb_forall.
  intros H c Hc. specialize (H c Hc).
  destruct (is_terminal c) eqn:Et; [| reflexivity].
  rewrite (terminal_not_space _ Et) in H. discriminate.
Qed.

Lemma all_space_replace old ws :
  all_space ws = true -> all_space (replace old SP ws) = true.
Proof.
  unfold all_space, replace. rewrite !forallb_forall.
  intros H c Hc. apply in_map_iff in Hc as (d & <- & Hd).
  destruct (d =? old)%N; [reflexivity | auto].
Qed.

Lemma space_before_sentence ws x :
  all_space ws = true -> is_sentence x -> is_sentence (ws ++ x).
Proof.
  intros Hw (body & c & -> & Hb & Hc).
  exists (ws ++ body), c. rewrite app_assoc.
  unfold no_terminal in *. rewrite forallb_app.
  fold (no_terminal ws). rewrite (all_space_no_terminal _ Hw), Hb. auto.
Qed.

Lemma findall_leading ws s :
  all_space ws = true ->
  findall (ws ++ s) =
  match findall s with
  | [] => []
  | x :: r => (ws ++ x) :: r
  end.
Proof.
  intros Hw. destruct (findall_partition s) as [Hall (tail & Ht & Hs)].
  destruct (findall s) as [|x r].
  - simpl in Hs. subst s. apply findall_no_terminal.
    unfold no_terminal in *. rewrite forallb_app.
    fold (no_terminal ws). rewrite (all_space_no_terminal _ Hw), Ht.
    reflexivity.
  - inversion Hall as [|? ? Hx Hr]; subst.
    simpl. rewrite <- app_assoc, app_assoc.
    rewrite (findall_sentence_app _ _ (space_before_sentence _ _ Hw Hx)).
    rewrite (findall_concat _ _ Hr Ht). reflexivity.
Qed.

Lemma long_enough_leading ws x m :
  all_space ws = true -> long_enough m (ws ++ x) = long_enough m x.
Proof.
  intros Hw. unfold long_enough. rewrite (split_all_space _ _ Hw).
  reflexivity.
Qed.

Lemma strip_leading ws x : all_space ws = true -> strip (ws ++ x) = strip x.
Proof.
  intros Hw. unfold strip. rewrite (lstrip_all_space _ _ Hw). reflexivity.
Qed.

Lemma filtered_sentences_leading ws text m :
  all_space ws = true ->
  filtered_sentences (ws ++ text) m = filtered_sentences text m.
Proof.
  intros Hw. unfold filtered_sentences, sentences_of.
  rewrite !replace_app.
  pose proof (all_space_replace CR _ (all_space_replace LF _ Hw)) as Hw'.
  rewrite (findall_leading _ _ Hw').
  destruct (findall (replace CR SP (replace LF SP text))) as [|x r];
    [reflexivity |].
  simpl. rewrite (long_enough_leading _ _ m Hw').
  destruct (long_enough m x); [| reflexivity].
  simpl. rewrite (strip_leading _ _ Hw'). reflexivity.
Qed.

(** X8. White space before the text, or between a '.', '!' or '?' and the
    sentence that follows, does not count: the result is the same with
    any amount of it, line breaks included, and with none. *)
Theorem space_between_sentences (t1 ws t2 : str) (min_length : Z) :
  ends_sentence t1 = true -> all_space ws = true ->
  preprocess_text (t1 ++ ws ++ t2) min_length
  = preprocess_text (t1 ++ t2) min_length.
Proof.
  intros He Hw. unfold preprocess_text, filtered_sentences.
  rewrite !(sentences_of_app _ _ He), !filter_app, !map_app.
  fold (filtered_sentences (ws ++ t2) min_length).
  fold (filtered_sentences t2 min_length).
  rewrite (filtered_sentences_leading _ _ _ Hw). reflexivity.
Qed.

Lemma space_between_sentences_witness :
  preprocess_text
    (of_string "A b c." ++ [SP; LF; CR; 9%N; 160%N] ++ of_string "D e f.") 3
  = preprocess_text (of_string "A b c." ++ of_string "D e f.") 3.
Proof.
  apply (space_between_sentences (of_string "A b c.") [SP; LF; CR; 9%N; 160%N]
           (of_string "D e f.") 3); reflexivity.
Defined.

(** ** The length of the result *)

Lemma join_length l :
  l <> [] -> length (join [SP] l) + 1 = length (concat l) + length l.
Proof.
  intros Hne. induction l as [|x r IH]; [contradiction |].
  destruct r as [|y r].
  - simpl. rewrite app_nil_r. lia.
  - change (join [SP] (x :: y :: r)) with (x ++ SP :: join [SP] (y :: r)).
    specialize (IH ltac:(discriminate)).
    change (concat (x :: y :: r)) with (x ++ concat (y :: r)).
    rewrite !length_app. simpl length in *. lia.
Qed.

Lemma strip_length s : length (strip s) <= length s.
Proof.
  destruct (strip_split s) as (lead & trail & _ & _ & Hs).
  rewrite Hs at 2. rewrite !length_app. lia.
Qed.

Lemma concat_strip_filter_length (f : str -> bool) l :
  length (concat (map strip (filter f l))) <= length (concat l).
Proof.
  induction l as [|x l IH]; simpl; [lia |].
  rewrite length_app. destruct (f x); simpl.
  - rewrite length_app. pose proof (strip_length x). lia.
  - lia.
Qed.

Lemma replace_length old new s : length (replace old new s) = length s.
Proof. apply length_map. Qed.

Lemma sentences_of_concat_length text :
  length (concat (sentences_of text)) <= length text.
Proof.
  unfold sentences_of.
  destruct (findall_partition (replace CR SP (replace LF SP text)))
    as [_ (tail & _ & Hs)].
  apply (f_equal (@length char)) in Hs.
  rewrite length_app, !replace_length in Hs. lia.
Qed.

(** X9. A result that is not empty is, with one character added, no
    longer than the text and its characters '.', '!' and '?' together; a
    result is never longer than that, nor than twice the text, and is
    shorter than twice a text that is not empty; it can be longer than
    the text, when sentences follow each other without a space. *)
Theorem result_length :
  (forall (text : str) (min_length : Z),
      preprocess_text text min_length <> [] ->
      length (preprocess_text text min_length) + 1
      <= length text + length (terminals text)) /\
  (forall (text : str) (min_length : Z),
      length (preprocess_text text min_length)
      <= length text + length (terminals text) /\
      length (preprocess_text text min_length) <= 2 * length text) /\
  (forall (text : str) (min_length : Z),
      text <> [] ->
      length (preprocess_text text min_length) < 2 * length text) /\
  (exists (text : str) (min_length : Z),
      length text < length (preprocess_text text min_length)).
Proof.
  assert (forall text m,
             length (preprocess_text text m) + 1
             <= length text + length (terminals text)
             \/ preprocess_text text m = []) as Hmain.
  { intros text m. unfold preprocess_text.
    destruct (filtered_sentences text m) as [|x r] eqn:El;
      [right; reflexivity | left].
    rewrite join_length by discriminate. rewrite <- El.
    assert (length (filtered_sentences text m) <= length (terminals text))
      as Hn.
    { unfold filtered_sentences.
      rewrite length_map, <- sentences_of_length. apply filter_length_le. }
    assert (length (concat (filtered_sentences text m)) <= length text)
      as Hc.
    { unfold filtered_sentences.
      etransitivity; [apply concat_strip_filter_length |].
      apply sentences_of_concat_length. }
    lia. }
  assert (forall text, length (terminals text) <= length text) as Hterm
      by (intros text; apply filter_length_le).
  split; [| split; [| split]].
  - intros text m Hne. destruct (Hmain text m) as [H|H];
      [exact H | contradiction].
  - intros text m. specialize (Hterm text).
    destruct (Hmain text m) as [H|H]; [lia | rewrite H; simpl; lia].
  - intros text m Hne. specialize (Hterm text).
    assert (0 < length text) as Hpos
        by (destruct text; [contradiction | simpl; lia]).
    destruct (Hmain text m) as [H|H]; [lia | rewrite H; simpl; lia].
  - exists (of_string "Yes.No."), 1%Z. vm_compute. lia.
Qed.

Lemma result_length_witness :
  length (preprocess_text (of_string "Yes.No.") 1) + 1
  <= length (of_string "Yes.No.") + length (terminals (of_string "Yes.No."))
  /\ length (preprocess_text (of_string "Yes.No. and") 9)
     < 2 * length (of_string "Yes.No. and").
Proof.
  split.
  - apply (proj1 result_length). vm_compute. discriminate.
  - apply (proj1 (proj2 (proj2 result_length))). discriminate.
Defined.

(** ** The statement that calls the function *)

Lemma lookup_assign_same name v ns : lookup name (assign name v ns) = Some v.
Proof.
  induction ns as [|[k w] r IH]; simpl.
  - rewrite String.eqb_refl. reflexivity.
  - destruct (String.eqb name k) eqn:E; simpl; rewrite E; auto.
Qed.

Lemma lookup_assign_other name name' v ns :
  name' <> name -> lookup name' (assign name v ns) = lookup name' ns.
Proof.
  intros Hne. apply String.eqb_neq in Hne.
  induction ns as [|[k w] r IH]; simpl.
  - rewrite Hne. reflexivity.
  - destruct (String.eqb name k) eqn:E; simpl.
    + apply String.eqb_eq in E. subst k. rewrite Hne. reflexivity.
    + rewrite IH. reflexivity.
Qed.

Lemma assign_fixed name v ns :
  lookup name ns = Some v -> assign name v ns = ns.
Proof.
  induction ns as [|[k w] r IH]; simpl; [discriminate |].
  destruct (String.eqb name k).
  - intros [= ->]. reflexivity.
  - intros H. rewrite (IH H). reflexivity.
Qed.

Lemma resolve_assign_other name name' v st :
  name' <> name ->
  resolve name' {| globals := assign name v (globals st);
                   builtins := builtins st |}
  = resolve name' st.
Proof.
  intros Hne. unfold resolve. simpl.
  rewrite (lookup_assign_other _ _ _ _ Hne). reflexivity.
Qed.

Lemma resolve_global name v st :
  lookup name (globals st) = Some v -> resolve name st = Some v.
Proof. unfold resolve. intros ->. reflexivity. Qed.

(** The statement, its operations unfolded. *)
Ltac run_stmt :=
  unfold rebind_book_text, rebind_book_text_stmt;
  cbv beta iota delta [bind load_global store_global ret raise];
  simpl.

(** X10. The statement [book_text = preprocess_text(book_text)] raises
    [NameError] when one of the two names is unbound, the function's name
    first; when it raises, for whatever reason, no variable has changed;
    with the names bound as the notebook has them it binds [book_text] to
    the processed text and leaves the other names as they are, and run
    once more it changes nothing. *)
Theorem rebind_book_text_settles (st : state) :
  (resolve "preprocess_text" st = None ->
   rebind_book_text st = (Raise (NameError "preprocess_text"), st)) /\
  (forall f, resolve "preprocess_text" st = Some f ->
             resolve "book_text" st = None ->
             rebind_book_text st = (Raise (NameError "book_text"), st)) /\
  (forall e st', rebind_book_text st = (Raise e, st') -> st' = st) /\
  (forall text,
      resolve "preprocess_text" st = Some VFunction_preprocess_text ->
      lookup "book_text" (globals st) = Some (VStr text) ->
      resolve "re" st = Some (VModule m_re) ->
      resolve "len" st = Some VBuiltin_len ->
      let st' :=
        {| globals :=
             assign "book_text"
                    (VStr (preprocess_text text default_min_length))
                    (globals st);
           builtins := builtins st |} in
      rebind_book_text st = (Return tt, st') /\
      (forall name, name <> "book_text"%string ->
                    resolve name st' = resolve name st) /\
      rebind_book_text st' = (Return tt, st')).
Proof.
  split; [| split; [| split]].
  - intros Hf. run_stmt. rewrite Hf. reflexivity.
  - intros f Hf Hb. run_stmt. rewrite Hf. simpl. rewrite Hb. reflexivity.
  - intros e st'. run_stmt.
    destruct (resolve "preprocess_text" st) as [f|];
      [| intros H; inversion H; reflexivity].
    simpl.
    destruct (resolve "book_text" st) as [arg|];
      [| intros H; inversion H; reflexivity].
    destruct f; simpl; try (intros H; inversion H; reflexivity).
    + destruct arg; simpl; intros H; inversion H; reflexivity.
    + pose proof (call_preprocess_text_state st arg None) as Hst.
      destruct (call_preprocess_text st arg None) as [r st1].
      simpl in Hst. subst st1.
      destruct r; simpl; intros H; inversion H; reflexivity.
  - intros text Hf Hb Hre Hlen st'.
    assert (forall s t,
               resolve "preprocess_text" s = Some VFunction_preprocess_text ->
               lookup "book_text" (globals s) = Some (VStr t) ->
               resolve "re" s = Some (VModule m_re) ->
               resolve "len" s = Some VBuiltin_len ->
               rebind_book_text s
               = (Return tt,
                  {| globals :=
                       assign "book_text"
                              (VStr (preprocess_text t default_min_length))
                              (globals s);
                     builtins := builtins s |})) as Hrun.
    { intros s t Hf' Hb' Hre' Hlen'. run_stmt.
      rewrite Hf'. simpl. rewrite (resolve_global _ _ _ Hb'). simpl.
      rewrite (call_preprocess_text_runs s t None Hre' Hlen').
      reflexivity. }
    split; [apply Hrun; assumption |].
    split; [intros name Hne; apply resolve_assign_other, Hne |].
    assert (lookup "book_text" (globals st')
            = Some (VStr (preprocess_text text default_min_length))) as Hb'
        by apply lookup_assign_same.
    rewrite (Hrun st' (preprocess_text text default_min_length)).
    + assert (preprocess_text (preprocess_text text default_min_length)
                              default_min_length
              = preprocess_text text default_min_length) as ->.
      { unfold preprocess_text.
        rewrite filtered_sentences_join; [reflexivity | |].
        - apply filtered_sentences_kept.
        - apply preprocess_text_no_newline. }
      rewrite (assign_fixed _ _ _ Hb'). destruct st'. reflexivity.
    + unfold st'. rewrite resolve_assign_other; [exact Hf | discriminate].
    + exact Hb'.
    + unfold st'. rewrite resolve_assign_other; [exact Hre | discriminate].
    + unfold st'. rewrite resolve_assign_other; [exact Hlen | discriminate].
Qed.

Lemma rebind_book_text_settles_witness :
  let st :=
    {| globals :=
         [("re"%string, VModule m_re);
          ("book_text"%string,
           VStr (of_string "Well, Prince." ++ [CR; LF]
                 ++ of_string "So Genoa and Lucca are now estates."));
          ("preprocess_text"%string, VFunction_preprocess_text)];
       builtins := [("len"%string, VBuiltin_len)] |} in
  rebind_book_text st
  = (Return tt,
     {| globals :=
          [("re"%string, VModule m_re);
           ("book_text"%string,
            VStr (of_string "So Genoa and Lucca are now estates."));
           ("preprocess_text"%string, VFunction_preprocess_text)];
        builtins := [("len"%string, VBuiltin_len)] |})
  /\ rebind_book_text {| globals := []; builtins := [] |}
     = (Raise (NameError "preprocess_text"),
        {| globals := []; builtins := [] |}).
Proof.
  intros st. split.
  - apply (proj1 (proj2 (proj2 (proj2 (rebind_book_text_settles st)))
                    _ eq_refl eq_refl eq_refl eq_refl)).
  - apply (proj1 (rebind_book_text_settles {| globals := [];
                                              builtins := [] |})).
    reflexivity.
Defined.

(** ** Processing a result again *)

Lemma refilter_spaced_any m r :
  Forall (fun y => is_sentence y /\ no_leading_space y = true) r ->
  map strip (filter (long_enough m) (map (cons SP) r))
  = filter (long_enough m) r.
Proof.
  induction 1 as [|y r (Hs & Hl) _ IH]; simpl; [reflexivity |].
  rewrite long_enough_space. destruct (long_enough m y); [| exact IH].
  simpl. rewrite (strip_space_sentence _ Hs Hl), IH. reflexivity.
Qed.

Lemma filtered_sentences_join_any l m :
  Forall (fun y => is_sentence y /\ no_leading_space y = true) l ->
  no_newline (join [SP] l) = true ->
  filtered_sentences (join [SP] l) m = filter (long_enough m) l.
Proof.
  intros Hl Hn. unfold filtered_sentences, sentences_of.
  rewrite (replace_fixed _ Hn), findall_join.
  - destruct Hl as [|x r (Hs & Hx) Hr]; [reflexivity |].
    simpl. destruct (long_enough m x); simpl.
    + rewrite (refilter_spaced_any _ _ Hr).
      rewrite (strip_sentence_lstrip _ Hs), (lstrip_fixed _ Hx).
      reflexivity.
    + apply refilter_spaced_any, Hr.
  - eapply Forall_impl; [| exact Hl]. intros y Hy. apply Hy.
Qed.

Lemma filter_map_strip m l :
  filter (long_enough m) (map strip l)
  = map strip (filter (long_enough m) l).
Proof.
  induction l as [|x l IH]; simpl; [reflexivity |].
  rewrite long_enough_strip. destruct (long_enough m x); simpl; rewrite IH;
    reflexivity.
Qed.

Lemma long_enough_max m m' x :
  long_enough m' x && long_enough m x = long_enough (Z.max m m') x.
Proof.
  unfold long_enough.
  destruct (Z.geb_spec (Z.of_nat (length (split x))) m');
    destruct (Z.geb_spec (Z.of_nat (length (split x))) m);
    destruct (Z.geb_spec (Z.of_nat (length (split x))) (Z.max m m'));
    simpl; try reflexivity; lia.
Qed.

Lemma filter_filter {A : Type} (f g : A -> bool) l :
  filter f (filter g l) = filter (fun x => f x && g x) l.
Proof.
  induction l as [|x l IH]; simpl; [reflexivity |].
  destruct (g x); simpl.
  - rewrite andb_true_r. destruct (f x); rewrite IH; reflexivity.
  - rewrite andb_false_r. exact IH.
Qed.

(** X11. Processing a result again with another minimum gives what one
    pass with the larger of the two minimums gives; so the order of two
    passes does not matter. *)
Theorem second_pass (text : str) (m m' : Z) :
  preprocess_text (preprocess_text text m) m'
  = preprocess_text text (Z.max m m') /\
  preprocess_text (preprocess_text text m) m'
  = preprocess_text (preprocess_text text m') m.
Proof.
  assert (forall a b,
             preprocess_text (preprocess_text text a) b
             = preprocess_text text (Z.max a b)) as H.
  { intros a b. unfold preprocess_text.
    rewrite filtered_sentences_join_any.
    - unfold filtered_sentences.
      rewrite filter_map_strip, filter_filter.
      rewrite (filter_ext _ _ (long_enough_max a b)). reflexivity.
    - eapply Forall_impl; [| apply (filtered_sentences_kept text a)].
      intros y (Hs & Hl & _). auto.
    - apply preprocess_text_no_newline. }
  split; [apply H |]. rewrite !H, Z.max_comm. reflexivity.
Qed.
